(** * globus_throttled: the token-bucket throttler

    A shallow embedding of [globus_throttled/throttler.py]: the two-tier
    dict of token buckets, [_get_item], [_update_item], [_consume_token],
    [_validate_request], [handle_event] and [cleanup], followed by the
    properties of the specification that are stated about them.

    Modelling conventions.
    - Python dicts are [gmap]s with string keys; the outer dict is keyed by
      the first positional argument of [_get_item], the inner one by the
      second.
    - [time.time()] is an input: [handle_event] takes the reading [now];
      [cleanup] reads the clock once per visited item, so it takes one
      reading per (outer key, inner key).
    - Timestamps and token counts are Python floats in the source; they are
      idealised here as exact rationals ([Q]).  Throttle parameters are
      Python ints ([Z]), injected into [Q] where the source mixes them with
      floats.
    - A Python exception is a value of [exn]; the store that comes back with
      it is the store at the moment of the raise.
    - [print] calls are not modelled. *)

From Stdlib Require Import QArith Qminmax Lqa.
From stdpp Require Import gmap strings list fin_maps.

Set Warnings "-register-all".
Local Open Scope Q_scope.

(** ** Python's two-argument [max] and [min]

    [max(a, b)] returns [b] only when [b > a]; [min(a, b)] returns [b] only
    when [b < a]; on a tie both return the first argument. *)

Definition py_max (a b : Q) : Q :=
  match a ?= b with Lt => b | _ => a end.

Definition py_min (a b : Q) : Q :=
  match a ?= b with Gt => b | _ => a end.

(** [x < y] and [x >= y] as Python evaluates them. *)
Definition py_lt (x y : Q) : bool :=
  match x ?= y with Lt => true | _ => false end.

Definition py_ge (x y : Q) : bool :=
  match x ?= y with Lt => false | _ => true end.

(** ** Data model *)

(** The dict [{'fill_rate': .., 'bucket_max': .., 'bucket_start': ..}]. *)
Record params := Params {
  fill_rate : Z;
  bucket_max : Z;
  bucket_start : Z
}.

(** The dict [{'last_access': .., 'num_tokens': .., 'last_params': ..}]. *)
Record item := Item {
  last_access : Q;
  num_tokens : Q;
  last_params : params
}.

(** [Throttler._resource_buckets]. *)
Abbreviation store := (gmap string (gmap string item)).

(** Token Bucket algorithm params (defaults). *)
Definition TOKEN_BUCKET_FILL_RATE : Z := 1.
Definition TOKEN_BUCKET_MAX : Z := 10.
Definition TOKEN_BUCKET_START : Z := TOKEN_BUCKET_MAX.

(** [Throttler.__init__]. *)
Definition __init__ : store := ∅.

(** The cell [_resource_buckets[k1][k2]], when both levels have the key. *)
Definition lookup_item (s : store) (k1 k2 : string) : option item :=
  s !! k1 ≫= λ coll, coll !! k2.

(** In-place assignment to the item object that lives at cell [k1][k2]. *)
Definition store_item (s : store) (k1 k2 : string) (it : item) : store :=
  alter (λ coll, <[k2 := it]> coll) k1 s.

(** ** [_get_item] *)

Definition _get_item (s : store) (resource_id requester_id : string)
    (now : Q) (p : params) : item * store :=
  let '(bucket_collection, s1) :=
    match s !! resource_id with
    | Some c => (c, s)
    | None => (∅, <[resource_id := ∅]> s)
    end in
  match bucket_collection !! requester_id with
  | Some it => (it, s1)
  | None =>
      let it := Item now (inject_Z (bucket_start p)) p in
      (it, <[resource_id := <[requester_id := it]> bucket_collection]> s1)
  end.

(** ** [_update_item] *)

Definition _update_item (it : item) (now : Q) (p : params) : item :=
  let last := last_access it in
  let tokens := num_tokens it in
  let delta := py_max 0 (inject_Z (fill_rate p) * (now - last)) in
  Item now (py_min (inject_Z (bucket_max p)) (tokens + delta)) p.

(** ** [_consume_token] *)

Definition _consume_token (s : store) (resource_id requester_id : string)
    (now : Q) (p : params) : bool * store :=
  let '(it, s1) := _get_item s resource_id requester_id now p in
  let it1 := _update_item it now p in
  let s2 := store_item s1 resource_id requester_id it1 in
  let new_val := num_tokens it1 - 1 in
  if py_lt new_val 0 then (false, s2)
  else (true, store_item s2 resource_id requester_id
                (Item (last_access it1) new_val (last_params it1))).

(** ** Requests

    The event is the decoded JSON body, in the documented request format:
    [requester_id] and [resource_id] are strings when present, and
    [throttle_params] is an object when present; its fields hold arbitrary
    JSON values.  Ids or a [throttle_params] of another JSON type are not
    part of this model. *)

Inductive json :=
  | JNull
  | JBool (b : bool)
  | JInt (z : Z)
  | JFloat (q : Q)
  | JStr (s : string)
  | JArray (l : list json)
  | JObject (l : list (string * json)).

Record event := Event {
  requester_id : option string;
  resource_id : option string;
  throttle_params : option (gmap string json)
}.

(** [isinstance(v, int)]: Python's [bool] is a subclass of [int]. *)
Definition is_int (v : json) : bool :=
  match v with
  | JInt _ | JBool _ => true
  | _ => false
  end.

(** The number an int-like value stands for in arithmetic; [None] for a
    value on which [*], [+] or [min] with a float raises [TypeError]. *)
Definition int_value (v : json) : option Z :=
  match v with
  | JInt z => Some z
  | JBool b => Some (if b then 1 else 0)%Z
  | _ => None
  end.

Inductive exn :=
  | HTTPError (status : Z) (reason : string)
  | TypeError.

(** The dict [{'allow_request': .., 'denial_details': ..}]. *)
Record response := Response {
  allow_request : bool;
  denial_details : option string
}.

(** [request.get('throttle_params', {})]. *)
Definition get_throttle_params (e : event) : gmap string json :=
  default ∅ (throttle_params e).

(** ** [_validate_request]: [None] when nothing is raised. *)

Definition check_param (tp : gmap string json) (x : string) : option exn :=
  if is_int (default (JInt 0) (tp !! x)) then None
  else Some (HTTPError 400 ("throttle_params." ++ x ++ " must be an int")).

Definition _validate_request (e : event) : option exn :=
  match requester_id e with
  | None => Some (HTTPError 400 "requester_id is required")
  | Some _ =>
    match resource_id e with
    | None => Some (HTTPError 400 "resource_id is required")
    | Some _ =>
      let tp := get_throttle_params e in
      match check_param tp "fill_rate" with
      | Some x => Some x
      | None =>
        match check_param tp "bucket_max" with
        | Some x => Some x
        | None => check_param tp "bucket_start"
        end
      end
    end
  end.

(** ** [handle_event] *)

(** [throttle_params.get(x, dflt)], read as a number. *)
Definition get_param (tp : gmap string json) (x : string) (dflt : Z)
    : option Z :=
  int_value (default (JInt dflt) (tp !! x)).

Definition evaluated_params (e : event) : option params :=
  let tp := get_throttle_params e in
  fr ← get_param tp "fill_rate" TOKEN_BUCKET_FILL_RATE;
  bm ← get_param tp "bucket_max" TOKEN_BUCKET_MAX;
  bs ← get_param tp "bucket_start" TOKEN_BUCKET_START;
  Some (Params fr bm bs).

Definition denial_text : string := "No detail today!".

(** The call is [self._consume_token(requester_id, resource_id, now, ..)]:
    the requester id is passed in the position of [_consume_token]'s
    [resource_id] parameter and the resource id in the position of its
    [requester_id] parameter. *)
Definition handle_event (now : Q) (e : event) (s : store)
    : (exn + response) * store :=
  match _validate_request e with
  | Some x => (inl x, s)
  | None =>
    match requester_id e, resource_id e, evaluated_params e with
    | Some requester, Some resource, Some p =>
        let '(has_capacity, s') := _consume_token s requester resource now p in
        if has_capacity then (inr (Response true None), s')
        else (inr (Response false (Some denial_text)), s')
    | _, _, _ => (inl TypeError, s)
    end
  end.

(** ** [cleanup]

    [clock k1 k2] is the value [time.time()] returns when the mark loop
    visits the item at cell [k1][k2]. *)

Definition clock := string → string → Q.

(** The body of the mark loop for one item: the item after the in-place
    update, and whether its key is added to [marked]. *)
Definition mark_item (now : Q) (it : item) : item * bool :=
  let it' := _update_item it now (last_params it) in
  (it', py_ge (num_tokens it') (inject_Z (bucket_max (last_params it')))).

(** MARK: every item is updated in place; [marked] collects the keys of the
    items that are full after the update. *)
Definition mark_store (ck : clock) (s : store) : store :=
  map_imap (λ k1 coll,
    Some (map_imap (λ k2 it, Some (fst (mark_item (ck k1 k2) it))) coll)) s.

Definition marked_keys (ck : clock) (s : store) : gset (string * string) :=
  list_to_set (
    '(k1, coll) ← map_to_list s;
    '(k2, it) ← map_to_list coll;
    if snd (mark_item (ck k1 k2) it) then [(k1, k2)] else []).

(** SWEEP, one iteration.  [self._resource_buckets[resource_id]] raises
    [KeyError] ([None]) when the outer key is gone. *)
Definition sweep_step (s : store) (k : string * string) : option store :=
  let '(resource_id, requester_id) := k in
  coll ← s !! resource_id;
  let coll' := delete requester_id coll in
  Some (if decide (size coll' = 0%nat)
        then delete resource_id s
        else <[resource_id := coll']> s).

Fixpoint sweep (s : store) (l : list (string * string)) : option store :=
  match l with
  | [] => Some s
  | k :: l' => s' ← sweep_step s k; sweep s' l'
  end.

Definition cleanup (ck : clock) (s : store) : option store :=
  if decide (size s = 0%nat) then Some s
  else sweep (mark_store ck s) (elements (marked_keys ck s)).

(** ** Runs of the throttler: any interleaving of requests and cleanup
    passes, starting from a store. *)

Inductive op :=
  | OpEvent (now : Q) (e : event)
  | OpCleanup (ck : clock).

Definition step (s : store) (o : op) : option store :=
  match o with
  | OpEvent now e => Some (snd (handle_event now e s))
  | OpCleanup ck => cleanup ck s
  end.

Fixpoint run (s : store) (ops : list op) : option store :=
  match ops with
  | [] => Some s
  | o :: ops' => s' ← step s o; run s' ops'
  end.

(** * The daemon's handler and the example API

    [daemon.py] and [examples/simple_api.py].  The sockets, the Tornado and
    Flask dispatch and the JSON codec are library code; what is embedded is
    what the repository's own functions compute.  The example API reaches
    the throttler through one HTTP POST to the daemon: that hop is modelled
    by the call the daemon's handler makes on the decoded body. *)

(** [RootTornadoHandler.post], on the decoded body: the dict written back,
    or the [HTTPError] that Tornado turns into the error reply. *)
Definition post (now : Q) (request : event) (s : store)
    : (exn + response) * store :=
  handle_event now request s.

(** What the example API sees of a Flask request: the [Authorization]
    header, when it is sent, and the peer address. *)
Record flask_request := FlaskRequest {
  authorization : option string;
  remote_addr : string
}.

(** Exceptions a view of the example API can end with: its own
    [RateLimitError], and the [ValueError] of [response.json()] on a reply
    that is not JSON (the daemon's error page). *)
Inductive api_exn :=
  | RateLimitError
  | ValueError.

(** A Flask response: the status code and the body, text or JSON object. *)
Record flask_response := FlaskResponse {
  status_code : Z;
  payload : string + list (string * json)
}.

(** [render_rate_limit_err]. *)
Definition render_rate_limit_err : flask_response :=
  FlaskResponse 429
    (inr [("code", JStr "RateLimitExceeded"); ("status", JInt 429)]).

(** [_check_rate_limit]: [None] when nothing is raised.  The body posted
    is [{'requester_id': .., 'resource_id': ..}]. *)
Definition _check_rate_limit (now : Q) (requester resource : string)
    (s : store) : option api_exn * store :=
  let '(reply, s') := post now (Event (Some requester) (Some resource) None) s in
  match reply with
  | inr r => (if allow_request r then None else Some RateLimitError, s')
  | inl _ => (Some ValueError, s')
  end.

(** The requester id [inner_func] uses: the [Authorization] header, or the
    peer address when the header is absent or empty ([if not
    requester_id]). *)
Definition requester_of (rq : flask_request) : string :=
  match authorization rq with
  | Some a => if bool_decide (a = "") then remote_addr rq else a
  | None => remote_addr rq
  end.

(** [rate_limited(resource_id)(f)]: the decorated view. *)
Definition rate_limited {A} (resource : string) (f : flask_request → A)
    (now : Q) (rq : flask_request) (s : store) : (api_exn + A) * store :=
  let requester := requester_of rq in
  let '(raised, s') := _check_rate_limit now requester resource s in
  match raised with
  | Some x => (inl x, s')
  | None => (inr (f rq), s')
  end.

(** The view [hello_world], undecorated. *)
Definition hello_world (rq : flask_request) : string :=
  "hello world" ++ String (Ascii.ascii_of_nat 10) EmptyString.

(** The route [/]: the decorated view, under the registered error handler;
    any other exception is Flask's 500 reply. *)
Definition route_root (now : Q) (rq : flask_request) (s : store)
    : flask_response * store :=
  let '(res, s') := rate_limited "api:path:foo" hello_world now rq s in
  match res with
  | inr body => (FlaskResponse 200 (inl body), s')
  | inl RateLimitError => (render_rate_limit_err, s')
  | inl ValueError => (FlaskResponse 500 (inl "Internal Server Error"), s')
  end.

(** * Vocabulary of the properties

    Names for the intermediate values of the source, the predicates the
    properties are stated with, and the concrete inputs used as examples. *)

(** The source's local [delta] in [_update_item]: the tokens a refill
    adds. *)
Definition delta (it : item) (now : Q) (p : params) : Q :=
  py_max 0 (inject_Z (fill_rate p) * (now - last_access it)).

(** The item [_get_item] creates for an absent key. *)
Definition fresh_item (now : Q) (p : params) : item :=
  Item now (inject_Z (bucket_start p)) p.

(** The item [_get_item] returns: the stored one, or a fresh one. *)
Definition current_item (s : store) (r q : string) (now : Q) (p : params)
    : item :=
  default (fresh_item now p) (lookup_item s r q).

(** The store in which cell [r][q] holds [it] and nothing else differs. *)
Definition put (s : store) (r q : string) (it : item) : store :=
  <[r := <[q := it]> (default ∅ (s !! r))]> s.

(** The item after the refill step of [_consume_token]. *)
Definition refilled (s : store) (r q : string) (now : Q) (p : params) : item :=
  _update_item (current_item s r q now p) now p.

(** The item after a token has been taken from it. *)
Definition spend (it : item) : item :=
  Item (last_access it) (num_tokens it - 1) (last_params it).


(** The parameter names [_validate_request] loops over. *)
Definition param_names : list string :=
  ["fill_rate"; "bucket_max"; "bucket_start"].

(** The two responses of [handle_event]. *)
Definition allowed : response := Response true None.
Definition denied : response := Response false (Some denial_text).

(** The specification's wording of an acceptable parameter value: a
    non-negative integer. *)
Definition is_nonneg_int (v : json) : bool :=
  match v with
  | JInt z => (0 <=? z)%Z
  | _ => false
  end.

(** What [_validate_request] rejects: a missing id, or a supplied parameter
    that is not an [int] instance. *)
Definition bad_request (e : event) : Prop :=
  requester_id e = None ∨ resource_id e = None ∨
  ∃ x v, x ∈ param_names ∧ get_throttle_params e !! x = Some v ∧
         is_int v = false.

(** A sequence of [handle_event] calls, each with its clock reading; the
    responses in order and the final store. *)
Fixpoint replay (s : store) (reqs : list (Q * event))
    : list (exn + response) * store :=
  match reqs with
  | [] => ([], s)
  | (now, e) :: reqs' =>
      let '(res, s1) := handle_event now e s in
      let '(rest, s2) := replay s1 reqs' in
      (res :: rest, s2)
  end.

(** The item a cleanup pass leaves at a cell: the refilled item when it is
    below capacity, nothing when it is full. *)
Definition swept (now : Q) (it : item) : option item :=
  let '(it', full) := mark_item now it in
  if full then None else Some it'.







(** ** Sequences of requests *)






(** Some request of the run passes validation and names the pair. *)
Definition requested (ops : list op) (q r : string) : Prop :=
  ∃ now e, OpEvent now e ∈ ops ∧ _validate_request e = None ∧
           requester_id e = Some q ∧ resource_id e = Some r.

(** A sequence of requests to the route [/] of the example API, each with
    the daemon's clock reading; the responses in order and the final
    store. *)
Fixpoint serve (s : store) (reqs : list (Q * flask_request))
    : list flask_response * store :=
  match reqs with
  | [] => ([], s)
  | (now, rq) :: reqs' =>
      let '(res, s1) := route_root now rq s in
      let '(rest, s2) := serve s1 reqs' in
      (res :: rest, s2)
  end.

(** The reply of the route [/] to a request that is let through. *)
Definition hello_response : flask_response :=
  FlaskResponse 200 (inl (hello_world (FlaskRequest None ""))).

(** Whether a submitted event names the pair ([q], [r]). *)
Definition is_for (q r : string) (tr : Q * event) : bool :=
  bool_decide (requester_id (snd tr) = Some q) &&
  bool_decide (resource_id (snd tr) = Some r).

(** Of the replies to a sequence of requests, those to the requests that
    name the pair. *)
Definition replies_for (q r : string) (reqs : list (Q * event))
    (replies : list (exn + response)) : list (exn + response) :=
  (filter (λ x, is_for q r (fst x) = true) (zip reqs replies)).*2.

(** ** Concrete inputs *)

(** A request without [throttle_params]: the defaults apply. *)
Definition plain_event (q r : string) : event := Event (Some q) (Some r) None.

Definition negative_rate_event : event :=
  Event (Some "alice") (Some "api") (Some {["fill_rate" := JInt (-1)]}).



(** A store in which alice holds a bucket for resource B. *)
Definition store_with_B : store :=
  snd (handle_event 3 (plain_event "alice" "B") __init__).

(** The store after a fresh pair has been drained at time 5: ten requests
    allowed, an eleventh denied. *)
Definition drained_store : store :=
  snd (replay __init__ (repeat (5, plain_event "alice" "api") 11)).

(** Two buckets of one requester: the first drained at time 5, the second
    touched once at time 5 with a capacity of 1, so full again one second
    later. *)
Definition two_bucket_store : store :=
  snd (handle_event 5
         (Event (Some "alice") (Some "B")
            (Some {["bucket_max" := JInt 1; "bucket_start" := JInt 1]}))
         drained_store).



(** A store with two buckets of one requester, each touched once at
    time 3. *)
Definition two_touched_store : store :=
  snd (handle_event 3 (plain_event "alice" "C") store_with_B).


(** Two requests at time 5 and a cleanup pass at time 6. *)
Definition sample_run : list op :=
  [OpEvent 5 (plain_event "alice" "api");
   OpEvent 5 (plain_event "alice" "api");
   OpCleanup (λ _ _, 6)].

(** The resource id the example API throttles its route [/] under. *)
Definition api_resource : string := "api:path:foo".

(** The event the example API posts for a Flask request. *)
Definition api_event (rq : flask_request) : event :=
  plain_event (requester_of rq) api_resource.

(** The Flask response that corresponds to a reply of the daemon. *)
Definition reply_response (res : exn + response) : flask_response :=
  match res with
  | inr r => if allow_request r then hello_response else render_rate_limit_err
  | inl _ => FlaskResponse 500 (inl "Internal Server Error")
  end.

(** Twelve requests that resolve to the requester id "10.0.0.1": without
    header, with an empty header, and with the address as header sent from
    elsewhere. *)
Definition same_requester_requests : list flask_request :=
  repeat (FlaskRequest None "10.0.0.1") 5 ++
  repeat (FlaskRequest (Some "") "10.0.0.1") 5 ++
  repeat (FlaskRequest (Some "10.0.0.1") "192.168.0.9") 2.

(** Requests from one address, each with another Authorization header. *)
Definition rotating_requests : list (Q * flask_request) :=
  [(5, FlaskRequest (Some "key-a") "10.0.0.1");
   (5, FlaskRequest (Some "key-b") "10.0.0.1");
   (5, FlaskRequest (Some "key-c") "10.0.0.1")].

(** * Properties *)

(** ** Comparisons, [max] and [min] *)

Section Arith.

Lemma py_max_spec (a b : Q) :
  (a < b ∧ py_max a b = b) ∨ (b <= a ∧ py_max a b = a).
Proof.
  unfold py_max. destruct (Qcompare_spec a b) as [H|H|H].
  - right. split; [rewrite H; apply Qle_refl | reflexivity].
  - left. auto.
  - right. split; [apply Qlt_le_weak, H | reflexivity].
Qed.

Lemma py_min_spec (a b : Q) :
  (b < a ∧ py_min a b = b) ∨ (a <= b ∧ py_min a b = a).
Proof.
  unfold py_min. destruct (Qcompare_spec a b) as [H|H|H].
  - right. split; [rewrite H; apply Qle_refl | reflexivity].
  - right. split; [apply Qlt_le_weak, H | reflexivity].
  - left. auto.
Qed.

Lemma py_lt_true (x y : Q) : py_lt x y = true ↔ x < y.
Proof.
  unfold py_lt. destruct (Qcompare_spec x y) as [H|H|H]; split; intros H';
    try discriminate; try reflexivity; try assumption.
  - rewrite H in H'. exfalso. apply (Qlt_irrefl _ H').
  - exfalso. apply (Qlt_irrefl x). apply Qlt_trans with y; assumption.
Qed.

Lemma py_lt_false (x y : Q) : py_lt x y = false ↔ y <= x.
Proof.
  split; intros H.
  - apply Qnot_lt_le. intros H'. apply py_lt_true in H'. congruence.
  - destruct (py_lt x y) eqn:E; [|reflexivity].
    apply py_lt_true in E. exfalso. apply (Qlt_not_le _ _ E H).
Qed.



Lemma py_max_eq (a b : Q) : py_max a b == Qmax a b.
Proof.
  destruct (py_max_spec a b) as [[H ->]|[H ->]].
  - symmetry. apply Q.max_r. apply Qlt_le_weak, H.
  - symmetry. apply Q.max_l, H.
Qed.


End Arith.

(** ** The refill step on one item *)

Section Refill.

Implicit Types (it : item) (p : params) (now : Q).

Lemma update_item_unfold it now p :
  _update_item it now p =
  Item now (py_min (inject_Z (bucket_max p)) (num_tokens it + delta it now p)) p.
Proof. reflexivity. Qed.


Lemma delta_zero it now p : last_access it == now → delta it now p = 0.
Proof.
  intros Hnow. unfold delta.
  destruct (py_max_spec 0 (inject_Z (fill_rate p) * (now - last_access it)))
    as [[H E]|[H E]]; [|exact E].
  exfalso.
  assert (inject_Z (fill_rate p) * (now - last_access it) == 0)
    as Hz by (rewrite Hnow; ring).
  rewrite Hz in H. apply (Qlt_irrefl _ H).
Qed.



Lemma delta_exact it now p :
  (0 ≤ fill_rate p)%Z → last_access it <= now →
  delta it now p == inject_Z (fill_rate p) * (now - last_access it).
Proof.
  intros Hfr Hle. unfold delta.
  destruct (py_max_spec 0 (inject_Z (fill_rate p) * (now - last_access it)))
    as [[H ->]|[H ->]]; [reflexivity|].
  assert (0 <= inject_Z (fill_rate p)) as Hq.
  { change 0 with (inject_Z 0). rewrite <- Zle_Qle. exact Hfr. }
  assert (0 <= inject_Z (fill_rate p) * (now - last_access it)) as Hp.
  { apply Qmult_le_0_compat; lra. }
  lra.
Qed.



Lemma update_tokens_value it now p :
  num_tokens it + delta it now p <= inject_Z (bucket_max p) →
  num_tokens (_update_item it now p) == num_tokens it + delta it now p.
Proof.
  intros Hle. rewrite update_item_unfold. simpl.
  destruct (py_min_spec (inject_Z (bucket_max p))
    (num_tokens it + delta it now p)) as [[H' ->]|[H' ->]]; lra.
Qed.





End Refill.

(** ** The store: lookup-or-create and in-place assignment *)

Section Store.

Implicit Types (s : store) (it : item) (p : params) (now : Q) (r q : string).

Lemma get_item_fst s r q now p :
  fst (_get_item s r q now p) = current_item s r q now p.
Proof.
  unfold _get_item, current_item, lookup_item.
  destruct (s !! r) as [c|] eqn:Hr; simpl.
  - destruct (c !! q); reflexivity.
  - rewrite lookup_empty. reflexivity.
Qed.

Lemma get_item_snd s r q now p :
  snd (_get_item s r q now p) = put s r q (current_item s r q now p).
Proof.
  unfold _get_item, current_item, lookup_item, put.
  destruct (s !! r) as [c|] eqn:Hr; simpl.
  - destruct (c !! q) as [it|] eqn:Hq; simpl.
    + rewrite (insert_id c q it Hq). rewrite (insert_id s r c Hr). reflexivity.
    + reflexivity.
  - rewrite lookup_empty. simpl. rewrite insert_insert_eq. reflexivity.
Qed.

Lemma store_item_put s r q it it' :
  store_item (put s r q it) r q it' = put s r q it'.
Proof.
  unfold store_item, put. rewrite alter_insert_eq, insert_insert_eq.
  reflexivity.
Qed.

Lemma put_lookup_outer s r q it :
  put s r q it !! r = Some (<[q := it]> (default ∅ (s !! r))).
Proof. unfold put. apply lookup_insert_eq. Qed.

Lemma put_lookup_outer_ne s r q it r' :
  r ≠ r' → put s r q it !! r' = s !! r'.
Proof. intros H. unfold put. by apply lookup_insert_ne. Qed.

Lemma lookup_item_put_eq s r q it : lookup_item (put s r q it) r q = Some it.
Proof.
  unfold lookup_item. rewrite put_lookup_outer. simpl.
  apply lookup_insert_eq.
Qed.

Lemma lookup_item_put_ne s r q it r' q' :
  (r', q') ≠ (r, q) → lookup_item (put s r q it) r' q' = lookup_item s r' q'.
Proof.
  intros Hne. unfold lookup_item.
  destruct (decide (r = r')) as [<-|Hr].
  - rewrite put_lookup_outer. simpl.
    rewrite lookup_insert_ne by congruence.
    destruct (s !! r); simpl; [reflexivity | apply lookup_empty].
  - rewrite put_lookup_outer_ne by assumption. reflexivity.
Qed.


Lemma consume_token_eq s r q now p :
  _consume_token s r q now p =
  if py_lt (num_tokens (refilled s r q now p) - 1) 0
  then (false, put s r q (refilled s r q now p))
  else (true, put s r q (spend (refilled s r q now p))).
Proof.
  unfold _consume_token, refilled.
  pose proof (get_item_fst s r q now p) as H1.
  pose proof (get_item_snd s r q now p) as H2.
  destruct (_get_item s r q now p) as [it s1]. simpl in H1, H2. subst.
  rewrite !store_item_put. reflexivity.
Qed.

End Store.

(** ** Validation and the admission path *)

Section Admission.

Implicit Types (s : store) (e : event) (p : params) (now : Q).

Lemma check_param_none tp x :
  check_param tp x = None ↔ is_int (default (JInt 0) (tp !! x)) = true.
Proof.
  unfold check_param. destruct (is_int _); split; congruence.
Qed.

Lemma check_param_some tp x ex :
  check_param tp x = Some ex → ∃ reason, ex = HTTPError 400 reason.
Proof.
  unfold check_param. destruct (is_int _); [discriminate|].
  intros [= <-]. eauto.
Qed.

Lemma validate_none e :
  _validate_request e = None ↔
  is_Some (requester_id e) ∧ is_Some (resource_id e) ∧
  ∀ x, x ∈ param_names →
    is_int (default (JInt 0) (get_throttle_params e !! x)) = true.
Proof.
  unfold _validate_request, param_names.
  destruct (requester_id e) as [q|]; [|split; [discriminate|]].
  2:{ intros [[? [=]] _]. }
  destruct (resource_id e) as [r|]; [|split; [discriminate|]].
  2:{ intros (_ & [? [=]] & _). }
  destruct (check_param _ "fill_rate") as [x1|] eqn:E1.
  { split; [discriminate|]. intros (_ & _ & H).
    assert (check_param (get_throttle_params e) "fill_rate" = None) as E.
    { apply check_param_none, H. set_solver. }
    congruence. }
  destruct (check_param _ "bucket_max") as [x2|] eqn:E2.
  { split; [discriminate|]. intros (_ & _ & H).
    assert (check_param (get_throttle_params e) "bucket_max" = None) as E.
    { apply check_param_none, H. set_solver. }
    congruence. }
  rewrite check_param_none. rewrite check_param_none in E1, E2.
  split.
  - intros E3. split; [eauto|]. split; [eauto|].
    intros x Hx. repeat (apply elem_of_cons in Hx as [->|Hx]); try assumption.
    by apply elem_of_nil in Hx.
  - intros (_ & _ & H). apply H. set_solver.
Qed.

Lemma validate_some e ex :
  _validate_request e = Some ex → ∃ reason, ex = HTTPError 400 reason.
Proof.
  unfold _validate_request.
  destruct (requester_id e); [|intros [= <-]; eauto].
  destruct (resource_id e); [|intros [= <-]; eauto].
  destruct (check_param _ "fill_rate") eqn:E1.
  { intros [= <-]. eapply check_param_some, E1. }
  destruct (check_param _ "bucket_max") eqn:E2.
  { intros [= <-]. eapply check_param_some, E2. }
  apply check_param_some.
Qed.

Lemma is_int_value v : is_int v = true → is_Some (int_value v).
Proof. destruct v; simpl; try discriminate; eauto. Qed.

Lemma is_int_default_value v d :
  is_int (default (JInt 0) v) = true → is_Some (int_value (default (JInt d) v)).
Proof. destruct v; simpl; [apply is_int_value | eauto]. Qed.

Lemma validate_evaluated e :
  _validate_request e = None → is_Some (evaluated_params e).
Proof.
  intros (_ & _ & H)%validate_none. unfold evaluated_params, get_param.
  destruct (is_int_default_value (get_throttle_params e !! "fill_rate")
    TOKEN_BUCKET_FILL_RATE) as [fr ->]; [apply H; set_solver|].
  destruct (is_int_default_value (get_throttle_params e !! "bucket_max")
    TOKEN_BUCKET_MAX) as [bm ->]; [apply H; set_solver|].
  destruct (is_int_default_value (get_throttle_params e !! "bucket_start")
    TOKEN_BUCKET_START) as [bs ->]; [apply H; set_solver|].
  simpl. eauto.
Qed.

(** What [handle_event] does with a request that passes validation. *)
Lemma handle_event_valid now e s q r p :
  _validate_request e = None →
  requester_id e = Some q → resource_id e = Some r →
  evaluated_params e = Some p →
  handle_event now e s =
  if py_lt (num_tokens (refilled s q r now p) - 1) 0
  then (inr denied, put s q r (refilled s q r now p))
  else (inr allowed, put s q r (spend (refilled s q r now p))).
Proof.
  intros Hv Hq Hr Hp. unfold handle_event. rewrite Hv, Hq, Hr, Hp.
  rewrite consume_token_eq.
  destruct (py_lt _ 0); reflexivity.
Qed.

Lemma handle_event_invalid now e s ex :
  _validate_request e = Some ex → handle_event now e s = (inl ex, s).
Proof. intros Hv. unfold handle_event. rewrite Hv. reflexivity. Qed.

Lemma valid_fields e :
  _validate_request e = None →
  ∃ q r p, requester_id e = Some q ∧ resource_id e = Some r ∧
           evaluated_params e = Some p.
Proof.
  intros Hv. destruct (validate_evaluated e Hv) as [p Hp].
  apply validate_none in Hv as ([q Hq] & [r Hr] & _). eauto 10.
Qed.

End Admission.

(** * The claims *)

(** ** C2: validation *)

(** C2, as stated, fails: a supplied negative integer is not a non-negative
    integer, yet the request is served (here it is allowed) and the store
    gains an entry. *)
Lemma negative_param_accepted :
  get_throttle_params negative_rate_event !! "fill_rate" = Some (JInt (-1)) ∧
  is_nonneg_int (JInt (-1)) = false ∧
  fst (handle_event 0 negative_rate_event __init__) = inr allowed ∧
  lookup_item (snd (handle_event 0 negative_rate_event __init__)) "alice" "api"
    = Some (Item 0 9 (Params (-1) 10 10)) ∧
  lookup_item __init__ "alice" "api" = None.
Proof. vm_compute. repeat split; reflexivity. Qed.

(** C2 (amended): [handle_event] raises the HTTP 400 error, and returns the
    store unchanged, whenever [requester_id] or [resource_id] is missing and
    whenever a supplied [fill_rate], [bucket_max] or [bucket_start] is not an
    [int] instance (a JSON integer of either sign, or a JSON boolean). *)
Theorem validation_rejects (now : Q) (e : event) (s : store) :
  bad_request e →
  ∃ reason, handle_event now e s = (inl (HTTPError 400 reason), s).
Proof.
  intros Hbad.
  destruct (_validate_request e) as [ex|] eqn:Hv.
  - destruct (validate_some e ex Hv) as [reason ->].
    exists reason. by apply handle_event_invalid.
  - exfalso. apply validate_none in Hv as ([q Hq] & [r Hr] & H).
    destruct Hbad as [Hb|[Hb|(x & v & Hx & Hl & Hi)]]; [congruence..|].
    specialize (H x Hx). rewrite Hl in H. simpl in H. congruence.
Qed.

Lemma validation_rejects_witness :
  (∃ reason, handle_event 0 (Event None (Some "api") None) __init__
             = (inl (HTTPError 400 reason), __init__)) ∧
  (∃ reason,
     handle_event 0
       (Event (Some "alice") (Some "api") (Some {["fill_rate" := JStr "x"]}))
       __init__ = (inl (HTTPError 400 reason), __init__)).
Proof.
  split.
  - apply validation_rejects. left. reflexivity.
  - apply validation_rejects. right. right.
    exists "fill_rate", (JStr "x"). split; [|split].
    + apply elem_of_cons. left. reflexivity.
    + vm_compute. reflexivity.
    + reflexivity.
Defined.

(** ** C5: the consume step and the response *)



(** ** C9: independent per-key accounting *)

Lemma handle_event_frame now e s (q' r' : string) :
  (requester_id e, resource_id e) ≠ (Some q', Some r') →
  lookup_item (snd (handle_event now e s)) q' r' = lookup_item s q' r'.
Proof.
  intros Hne. destruct (_validate_request e) as [ex|] eqn:Hv.
  - rewrite (handle_event_invalid now e s ex Hv). reflexivity.
  - destruct (valid_fields e Hv) as (q & r & p & Hq & Hr & Hp).
    rewrite (handle_event_valid now e s q r p Hv Hq Hr Hp).
    assert ((q', r') ≠ (q, r)) by (rewrite Hq, Hr in Hne; congruence).
    destruct (py_lt _ 0); simpl; by apply lookup_item_put_ne.
Qed.

Lemma handle_event_local now e s1 s2 (q r : string) :
  requester_id e = Some q → resource_id e = Some r →
  lookup_item s1 q r = lookup_item s2 q r →
  fst (handle_event now e s1) = fst (handle_event now e s2) ∧
  lookup_item (snd (handle_event now e s1)) q r =
  lookup_item (snd (handle_event now e s2)) q r.
Proof.
  intros Hq Hr Heq. destruct (_validate_request e) as [ex|] eqn:Hv.
  - rewrite !(handle_event_invalid now e _ ex Hv). simpl. auto.
  - destruct (valid_fields e Hv) as (q0 & r0 & p & Hq' & Hr' & Hp).
    assert (q0 = q) as -> by congruence. assert (r0 = r) as -> by congruence.
    rewrite !(handle_event_valid now e _ q r p Hv Hq Hr Hp).
    unfold refilled, current_item. rewrite Heq.
    destruct (py_lt _ 0); simpl; rewrite !lookup_item_put_eq; auto.
Qed.

(** C9: a call of [handle_event] for the pair (requester [q], resource [r])
    leaves the entry of every other pair exactly as it was, in particular
    the entry of the same requester for another resource; and neither its
    response nor the entry it writes depends on any other entry: two stores
    that agree on the pair's own entry give the same response and the same
    new entry. *)
Theorem per_key_independence (now : Q) (e : event) (s : store) (q r : string) :
  requester_id e = Some q → resource_id e = Some r →
  (∀ q' r', (q', r') ≠ (q, r) →
     lookup_item (snd (handle_event now e s)) q' r' = lookup_item s q' r') ∧
  (∀ r', r' ≠ r →
     lookup_item (snd (handle_event now e s)) q r' = lookup_item s q r') ∧
  (∀ s2, lookup_item s q r = lookup_item s2 q r →
     fst (handle_event now e s) = fst (handle_event now e s2) ∧
     lookup_item (snd (handle_event now e s)) q r =
     lookup_item (snd (handle_event now e s2)) q r).
Proof.
  intros Hq Hr. split; [|split].
  - intros q' r' Hne. apply handle_event_frame. rewrite Hq, Hr. congruence.
  - intros r' Hne. apply handle_event_frame. rewrite Hq, Hr. congruence.
  - intros s2 Heq. by apply handle_event_local.
Qed.

Lemma per_key_independence_witness :
  lookup_item (snd (handle_event 7 (plain_event "alice" "A") store_with_B))
    "alice" "B" = Some (Item 3 9 (Params 1 10 10)) ∧
  lookup_item store_with_B "alice" "B" = Some (Item 3 9 (Params 1 10 10)).
Proof.
  split.
  - rewrite (proj1 (proj2 (per_key_independence 7 (plain_event "alice" "A")
      store_with_B "alice" "A" eq_refl eq_refl)) "B"); [|discriminate].
    vm_compute. reflexivity.
  - vm_compute. reflexivity.
Defined.

(** ** C8: the refill step is idempotent and monotone *)

Lemma delta_mono_now it now1 now2 p :
  (0 ≤ fill_rate p)%Z → now1 <= now2 → delta it now1 p <= delta it now2 p.
Proof.
  intros Hfr Hle. unfold delta.
  assert (0 <= inject_Z (fill_rate p)) as Hq.
  { change 0 with (inject_Z 0). rewrite <- Zle_Qle. exact Hfr. }
  assert (0 <= inject_Z (fill_rate p) * (now2 - now1)) as Hp.
  { apply Qmult_le_0_compat; lra. }
  destruct (py_max_spec 0 (inject_Z (fill_rate p) * (now1 - last_access it)))
    as [[H1 ->]|[H1 ->]];
  destruct (py_max_spec 0 (inject_Z (fill_rate p) * (now2 - last_access it)))
    as [[H2 ->]|[H2 ->]]; lra.
Qed.

(** With a non-negative fill rate the refilled amount also grows with the
    time of the refill. *)
Lemma update_tokens_mono_now it now1 now2 p :
  (0 ≤ fill_rate p)%Z → now1 <= now2 →
  num_tokens (_update_item it now1 p) <= num_tokens (_update_item it now2 p).
Proof.
  intros Hfr Hle. pose proof (delta_mono_now it now1 now2 p Hfr Hle) as Hd.
  rewrite !update_item_unfold. simpl.
  destruct (py_min_spec (inject_Z (bucket_max p))
    (num_tokens it + delta it now1 p)) as [[H1 ->]|[H1 ->]];
  destruct (py_min_spec (inject_Z (bucket_max p))
    (num_tokens it + delta it now2 p)) as [[H2 ->]|[H2 ->]]; lra.
Qed.



(** ** C3: clock regression *)




(** ** C4 and C6: bursts of requests *)

Section Burst.

Variables (e : event) (q r : string) (p : params).
Hypothesis Hvalid : _validate_request e = None.
Hypothesis Hq : requester_id e = Some q.
Hypothesis Hr : resource_id e = Some r.
Hypothesis Hp : evaluated_params e = Some p.

Lemma inject_Z_pred (k : Z) : inject_Z k - 1 == inject_Z (k - 1).
Proof. unfold Qeq, Qminus, Qplus, Qopp, inject_Z. simpl. lia. Qed.

(** One request when the bucket holds [k] whole tokens and no time has
    passed since its last access. *)
Lemma request_same_instant now s (k : Z) :
  (0 ≤ k ≤ bucket_max p)%Z →
  last_access (current_item s q r now p) == now →
  num_tokens (current_item s q r now p) == inject_Z k →
  ∃ it,
    last_access it = now ∧
    handle_event now e s =
      (if decide (k = 0)%Z then inr denied else inr allowed, put s q r it) ∧
    num_tokens it == inject_Z (if decide (k = 0)%Z then 0 else k - 1).
Proof.
  intros Hk Hla Hnt.
  rewrite (handle_event_valid now e s q r p Hvalid Hq Hr Hp).
  assert (num_tokens (refilled s q r now p) == inject_Z k) as Hre.
  { unfold refilled. rewrite update_tokens_value;
      rewrite (delta_zero _ now p Hla), Hnt; [ring|].
    rewrite Qplus_0_r. rewrite <- Zle_Qle. lia. }
  case_decide as Hk0.
  - exists (refilled s q r now p). split; [reflexivity|]. split.
    + assert (py_lt (num_tokens (refilled s q r now p) - 1) 0 = true) as ->;
        [|reflexivity].
      apply py_lt_true. rewrite Hre, Hk0. reflexivity.
    + rewrite Hre, Hk0. reflexivity.
  - exists (spend (refilled s q r now p)). split; [reflexivity|]. split.
    + assert (py_lt (num_tokens (refilled s q r now p) - 1) 0 = false) as ->;
        [|reflexivity].
      apply py_lt_false. rewrite Hre, inject_Z_pred.
      change 0 with (inject_Z 0). rewrite <- Zle_Qle. lia.
    + simpl. rewrite Hre. apply inject_Z_pred.
Qed.

(** [n] requests at one instant: as many are allowed as there are whole
    tokens, the rest are denied. *)
Lemma burst_same_instant now (n : nat) : ∀ s (k : Z),
  (0 ≤ k ≤ bucket_max p)%Z →
  last_access (current_item s q r now p) == now →
  num_tokens (current_item s q r now p) == inject_Z k →
  fst (replay s (repeat (now, e) n)) =
    repeat (inr allowed) (n `min` Z.to_nat k) ++
    repeat (inr denied) (n - Z.to_nat k).
Proof.
  induction n as [|n IH]; intros s k Hk Hla Hnt; [reflexivity|].
  destruct (request_same_instant now s k Hk Hla Hnt) as (it & Hit & Hev & Htok).
  change (repeat (now, e) (S n)) with ((now, e) :: repeat (now, e) n).
  cbn [replay]. rewrite Hev.
  specialize (IH (put s q r it) (if decide (k = 0)%Z then 0 else k - 1)%Z).
  destruct (replay (put s q r it) (repeat (now, e) n)) as [rest s2] eqn:Hrep.
  cbn [fst] in IH |- *. rewrite IH; clear IH.
  - case_decide as Hk0.
    + subst k. change (Z.to_nat 0) with 0%nat.
      rewrite !Nat.min_0_r, !Nat.sub_0_r. reflexivity.
    + replace (S n `min` Z.to_nat k)%nat
        with (S (n `min` Z.to_nat (k - 1)))%nat by lia.
      replace (S n - Z.to_nat k)%nat with (n - Z.to_nat (k - 1))%nat by lia.
      reflexivity.
  - case_decide; lia.
  - unfold current_item. rewrite lookup_item_put_eq. simpl. rewrite Hit.
    reflexivity.
  - unfold current_item. rewrite lookup_item_put_eq. simpl. exact Htok.
Qed.

End Burst.

(** C4: for a pair the store has never seen, evaluated with the default
    parameters (fill_rate=1, bucket_max=10, bucket_start=10), eleven
    consecutive requests at one timestamp get ten allowances followed by a
    denial. *)
Theorem first_request_initialization
    (s : store) (e : event) (q r : string) (now : Q) :
  _validate_request e = None →
  requester_id e = Some q → resource_id e = Some r →
  evaluated_params e = Some (Params 1 10 10) →
  lookup_item s q r = None →
  fst (replay s (repeat (now, e) 11)) =
    repeat (inr (Response true None)) 10 ++
    [inr (Response false (Some "No detail today!"))].
Proof.
  intros Hv Hq Hr Hp Hnone.
  rewrite (burst_same_instant e q r (Params 1 10 10) Hv Hq Hr Hp now 11 s 10).
  - reflexivity.
  - simpl. lia.
  - unfold current_item. rewrite Hnone. reflexivity.
  - unfold current_item. rewrite Hnone. reflexivity.
Qed.

Lemma first_request_initialization_witness :
  fst (replay __init__ (repeat (5, plain_event "alice" "api") 11)) =
    repeat (inr (Response true None)) 10 ++
    [inr (Response false (Some "No detail today!"))].
Proof.
  apply (first_request_initialization __init__ (plain_event "alice" "api")
           "alice" "api" 5); reflexivity.
Defined.

(** C6: with the default parameters, once the bucket of a pair holds 0
    tokens, a request exactly 1 second after its last access finds exactly 1
    token after the refill: that request is allowed and the next one at the
    same time is denied. *)
Theorem refill_recovery
    (s : store) (e : event) (q r : string) (t : Q) (it : item) :
  _validate_request e = None →
  requester_id e = Some q → resource_id e = Some r →
  evaluated_params e = Some (Params 1 10 10) →
  lookup_item s q r = Some it →
  num_tokens it == 0 → last_access it == t →
  num_tokens (_update_item it (t + 1) (Params 1 10 10)) == 1 ∧
  fst (replay s [(t + 1, e); (t + 1, e)]) =
    [inr (Response true None);
     inr (Response false (Some "No detail today!"))].
Proof.
  intros Hv Hq Hr Hp Hit Hnt Hla.
  assert (num_tokens (_update_item it (t + 1) (Params 1 10 10)) == 1) as Hone.
  { assert (delta it (t + 1) (Params 1 10 10) == 1) as Hd.
    { rewrite delta_exact; [| simpl; lia | rewrite Hla; lra].
      simpl fill_rate. rewrite Hla. unfold inject_Z. ring. }
    rewrite update_tokens_value; rewrite Hd, Hnt; [reflexivity|].
    simpl bucket_max. unfold inject_Z. vm_compute. discriminate. }
  split; [exact Hone|].
  cbn [replay].
  rewrite (handle_event_valid (t + 1) e s q r _ Hv Hq Hr Hp).
  assert (refilled s q r (t + 1) (Params 1 10 10) =
          _update_item it (t + 1) (Params 1 10 10)) as Hre.
  { unfold refilled, current_item. rewrite Hit. reflexivity. }
  rewrite Hre.
  assert (py_lt (num_tokens (_update_item it (t + 1) (Params 1 10 10)) - 1) 0
          = false) as ->.
  { apply py_lt_false. rewrite Hone. vm_compute. discriminate. }
  set (s1 := put s q r (spend (_update_item it (t + 1) (Params 1 10 10)))).
  pose proof (burst_same_instant e q r (Params 1 10 10) Hv Hq Hr Hp
                (t + 1) 1 s1 0) as Hb.
  simpl repeat in Hb. cbn [replay] in Hb.
  destruct (handle_event (t + 1) e s1) as [res s2].
  cbn [fst] in Hb |- *. f_equal. apply Hb.
  - simpl. lia.
  - unfold current_item, s1. rewrite lookup_item_put_eq. reflexivity.
  - unfold current_item, s1. rewrite lookup_item_put_eq. simpl.
    rewrite Hone. reflexivity.
Qed.

Lemma refill_recovery_witness :
  lookup_item drained_store "alice" "api" = Some (Item 5 0 (Params 1 10 10)) ∧
  num_tokens (_update_item (Item 5 0 (Params 1 10 10)) (5 + 1) (Params 1 10 10))
    == 1 ∧
  fst (replay drained_store
         [(5 + 1, plain_event "alice" "api"); (5 + 1, plain_event "alice" "api")])
    = [inr (Response true None);
       inr (Response false (Some "No detail today!"))].
Proof.
  assert (lookup_item drained_store "alice" "api"
          = Some (Item 5 0 (Params 1 10 10))) as Hl
    by (vm_compute; reflexivity).
  split; [exact Hl|].
  apply (refill_recovery drained_store (plain_event "alice" "api")
           "alice" "api" 5 (Item 5 0 (Params 1 10 10)));
    solve [reflexivity | exact Hl].
Defined.

(** ** Cleanup: mark and sweep *)

Section Cleanup.

Implicit Types (s : store) (ck : clock) (k a b : string).

Lemma mark_store_lookup ck s k1 :
  mark_store ck s !! k1 =
  (λ coll, map_imap (λ k2 it, Some (fst (mark_item (ck k1 k2) it))) coll)
    <$> s !! k1.
Proof.
  unfold mark_store. rewrite map_lookup_imap.
  destruct (s !! k1); reflexivity.
Qed.

Lemma lookup_item_mark_store ck s k1 k2 :
  lookup_item (mark_store ck s) k1 k2 =
  (λ it, fst (mark_item (ck k1 k2) it)) <$> lookup_item s k1 k2.
Proof.
  unfold lookup_item. rewrite mark_store_lookup.
  destruct (s !! k1) as [coll|]; simpl; [|reflexivity].
  rewrite map_lookup_imap. destruct (coll !! k2); reflexivity.
Qed.

Lemma mark_store_empty_group ck s k1 :
  mark_store ck s !! k1 = Some ∅ → s !! k1 = Some ∅.
Proof.
  rewrite mark_store_lookup. destruct (s !! k1) as [coll|]; [|discriminate].
  simpl. intros [= H]. f_equal. apply map_eq. intros k2.
  apply (f_equal (λ m, m !! k2)) in H.
  rewrite map_lookup_imap, lookup_empty in H. rewrite lookup_empty.
  destruct (coll !! k2); [discriminate | reflexivity].
Qed.

Lemma elem_of_marked_keys ck s k1 k2 :
  (k1, k2) ∈ marked_keys ck s ↔
  ∃ it, lookup_item s k1 k2 = Some it ∧ snd (mark_item (ck k1 k2) it) = true.
Proof.
  unfold marked_keys, lookup_item. rewrite elem_of_list_to_set.
  rewrite list_elem_of_bind. split.
  - intros ([a coll] & Hin & Hcoll). apply elem_of_map_to_list in Hcoll.
    apply list_elem_of_bind in Hin as ([b it] & Hin & Hit).
    apply elem_of_map_to_list in Hit.
    destruct (snd (mark_item (ck a b) it)) eqn:Hm.
    + apply list_elem_of_singleton in Hin as [= -> ->].
      exists it. rewrite Hcoll. simpl. auto.
    + by apply elem_of_nil in Hin.
  - intros (it & Hl & Hm). destruct (s !! k1) as [coll|] eqn:Hk1;
      [|discriminate]. simpl in Hl.
    exists (k1, coll). split; [|by apply elem_of_map_to_list].
    apply list_elem_of_bind. exists (k2, it).
    split; [|by apply elem_of_map_to_list].
    rewrite Hm. apply list_elem_of_singleton. reflexivity.
Qed.

(** One sweep iteration on a key whose cell exists. *)
Lemma sweep_step_spec s k1 k2 :
  is_Some (lookup_item s k1 k2) →
  ∃ s', sweep_step s (k1, k2) = Some s' ∧
    (∀ a b, lookup_item s' a b =
            if decide ((a, b) = (k1, k2)) then None else lookup_item s a b) ∧
    (∀ a, s' !! a = Some ∅ → s !! a = Some ∅).
Proof.
  intros [it Hit]. unfold lookup_item in Hit. unfold sweep_step.
  destruct (s !! k1) as [coll|] eqn:Hk1; [|discriminate]. simpl in Hit |- *.
  eexists. split; [reflexivity|].
  destruct (decide (size (delete k2 coll) = 0%nat)) as [Hsz|Hsz]; split.
  - intros a b. unfold lookup_item.
    destruct (decide ((a, b) = (k1, k2))) as [Hab|Hab].
    + injection Hab as -> ->. rewrite lookup_delete_eq. reflexivity.
    + destruct (decide (a = k1)) as [->|Ha].
      * assert (b ≠ k2) as Hb by congruence. rewrite Hk1. simpl.
        rewrite lookup_delete_eq. simpl.
        apply map_size_empty_iff in Hsz.
        apply (f_equal (λ m, m !! b)) in Hsz.
        rewrite lookup_delete_ne, lookup_empty in Hsz by congruence.
        congruence.
      * rewrite lookup_delete_ne by congruence. reflexivity.
  - intros a. destruct (decide (a = k1)) as [->|Ha].
    + rewrite lookup_delete_eq. discriminate.
    + rewrite lookup_delete_ne by congruence. auto.
  - intros a b. unfold lookup_item.
    destruct (decide ((a, b) = (k1, k2))) as [Hab|Hab].
    + injection Hab as -> ->. rewrite lookup_insert_eq. simpl.
      apply lookup_delete_eq.
    + destruct (decide (a = k1)) as [->|Ha].
      * assert (b ≠ k2) as Hb by congruence. rewrite Hk1. simpl.
        rewrite lookup_insert_eq. simpl.
        rewrite lookup_delete_ne by congruence. reflexivity.
      * rewrite lookup_insert_ne by congruence. reflexivity.
  - intros a. destruct (decide (a = k1)) as [->|Ha].
    + rewrite lookup_insert_eq. intros [= H]. rewrite H in Hsz.
      exfalso. apply Hsz. apply map_size_empty.
    + rewrite lookup_insert_ne by congruence. auto.
Qed.

(** The sweep over a duplicate-free list of keys whose cells all exist:
    it raises no [KeyError], empties exactly the listed cells, and leaves
    no group empty that was not empty before. *)
Lemma sweep_spec (l : list (string * string)) : ∀ s,
  NoDup l →
  (∀ a b, (a, b) ∈ l → is_Some (lookup_item s a b)) →
  ∃ s', sweep s l = Some s' ∧
    (∀ a b, lookup_item s' a b =
            if decide ((a, b) ∈ l) then None else lookup_item s a b) ∧
    (∀ a, s' !! a = Some ∅ → s !! a = Some ∅).
Proof.
  induction l as [|[k1 k2] l IH]; intros s Hnd Hin.
  - exists s. split; [reflexivity|]. split; [|auto].
    intros a b. case_decide as H; [by apply elem_of_nil in H | reflexivity].
  - apply NoDup_cons in Hnd as [Hnotin Hnd].
    destruct (sweep_step_spec s k1 k2) as (s1 & Hs1 & Hl1 & He1).
    { apply Hin. apply elem_of_cons. left. reflexivity. }
    destruct (IH s1 Hnd) as (s' & Hs' & Hl' & He').
    { intros a b Hab. rewrite Hl1. case_decide as Heq.
      - exfalso. apply Hnotin. rewrite <- Heq. exact Hab.
      - apply Hin. apply elem_of_cons. right. exact Hab. }
    exists s'. split.
    { change (sweep s ((k1, k2) :: l))
        with (sweep_step s (k1, k2) ≫= λ s1, sweep s1 l).
      rewrite Hs1. exact Hs'. }
    split.
    + intros a b. rewrite Hl', Hl1.
      destruct (decide ((a, b) ∈ l)) as [H1|H1];
      destruct (decide ((a, b) ∈ (k1, k2) :: l)) as [H2|H2];
      try reflexivity.
      * exfalso. apply H2. apply elem_of_cons. right. exact H1.
      * apply elem_of_cons in H2 as [H2|H2]; [|contradiction].
        rewrite decide_True by exact H2. reflexivity.
      * case_decide as H3; [|reflexivity].
        exfalso. apply H2. apply elem_of_cons. left. exact H3.
    + intros a Ha. apply He1, He', Ha.
Qed.

(** [cleanup] raises nothing and acts cell by cell. *)
Lemma cleanup_spec ck s :
  ∃ s', cleanup ck s = Some s' ∧
    (∀ a b, lookup_item s' a b = lookup_item s a b ≫= swept (ck a b)) ∧
    (∀ a, s' !! a = Some ∅ → s !! a = Some ∅).
Proof.
  unfold cleanup. case_decide as Hsz.
  - exists s. split; [reflexivity|]. split; [|auto].
    intros a b. apply map_size_empty_iff in Hsz. subst s.
    unfold lookup_item. rewrite lookup_empty. reflexivity.
  - destruct (sweep_spec (elements (marked_keys ck s)) (mark_store ck s))
      as (s' & Hs' & Hl' & He').
    { apply NoDup_elements. }
    { intros a b Hab. apply elem_of_elements, elem_of_marked_keys in Hab
        as (it & Hit & _).
      rewrite lookup_item_mark_store, Hit. simpl. eauto. }
    exists s'. split; [exact Hs'|]. split.
    + intros a b. rewrite Hl', lookup_item_mark_store.
      destruct (lookup_item s a b) as [it|] eqn:Hit; simpl.
      * unfold swept. destruct (mark_item (ck a b) it) as [it' full] eqn:Hm.
        case_decide as Hin.
        -- apply elem_of_elements, elem_of_marked_keys in Hin
             as (it2 & Hit2 & Hfull).
           assert (it2 = it) as -> by congruence.
           rewrite Hm in Hfull. simpl in Hfull. subst full. reflexivity.
        -- destruct full; [|unfold mark_item in Hm; congruence].
           exfalso. apply Hin. apply elem_of_elements, elem_of_marked_keys.
           exists it. rewrite Hm. auto.
      * case_decide; reflexivity.
    + intros a Ha. apply mark_store_empty_group with ck. apply He', Ha.
Qed.

End Cleanup.

(** ** C7: eviction by cleanup *)


Example cleanup_two_buckets :
  ∃ s', cleanup (λ _ _, 7) two_bucket_store = Some s' ∧
    lookup_item two_bucket_store "alice" "A" = None ∧
    lookup_item two_bucket_store "alice" "api"
      = Some (Item 5 0 (Params 1 10 10)) ∧
    lookup_item two_bucket_store "alice" "B"
      = Some (Item 5 0 (Params 1 1 1)) ∧
    lookup_item s' "alice" "api" = Some (Item 7 2 (Params 1 10 10)) ∧
    lookup_item s' "alice" "B" = None.
Proof. eexists. vm_compute. repeat split; reflexivity. Qed.

(** ** Invariants of runs *)

Section Runs.

Variable ok : op → Prop.
Variable P : store → Prop.
Hypothesis P_event :
  ∀ now e s, ok (OpEvent now e) → P s → P (snd (handle_event now e s)).
Hypothesis P_cleanup :
  ∀ ck s s', P s → cleanup ck s = Some s' → P s'.


End Runs.

(** ** C10: no empty resource group *)





(** ** C1: the capacity invariant *)













(** * Further properties of the throttler *)

(** ** Outcomes of [handle_event] *)








(** ** Bursts and the rate bound *)


Section RateBound.

Variables (e : event) (q r : string) (p : params).
Hypothesis Hvalid : _validate_request e = None.
Hypothesis Hq : requester_id e = Some q.
Hypothesis Hr : resource_id e = Some r.
Hypothesis Hp : evaluated_params e = Some p.
Hypothesis Hfr : (0 ≤ fill_rate p)%Z.
Hypothesis Hbm : (0 ≤ bucket_max p)%Z.



End RateBound.





(** ** More on cleanup *)

Lemma store_eq_lookup (s1 s2 : store) :
  (∀ a b, lookup_item s1 a b = lookup_item s2 a b) →
  (∀ a, s1 !! a = Some ∅ ↔ s2 !! a = Some ∅) →
  s1 = s2.
Proof.
  intros Hl He. apply map_eq. intros a.
  assert (∀ (u v : store) c, (∀ b, lookup_item u a b = lookup_item v a b) →
            (u !! a = Some ∅ → v !! a = Some ∅) →
            u !! a = Some c → v !! a = Some c) as Hhalf.
  { intros u v c Huv Hemp Hu.
    destruct (decide (c = ∅)) as [->|Hne]; [by apply Hemp|].
    destruct (v !! a) as [c'|] eqn:Hv.
    - f_equal. apply map_eq. intros b. specialize (Huv b).
      unfold lookup_item in Huv. rewrite Hu, Hv in Huv. simpl in Huv.
      congruence.
    - exfalso. apply Hne. apply map_eq. intros b. specialize (Huv b).
      unfold lookup_item in Huv. rewrite Hu, Hv in Huv. simpl in Huv.
      rewrite lookup_empty. exact Huv. }
  destruct (s1 !! a) as [c1|] eqn:H1.
  - symmetry. apply (Hhalf s1 s2 c1); [apply Hl | apply He | exact H1].
  - destruct (s2 !! a) as [c2|] eqn:H2; [|reflexivity].
    rewrite <- H1. apply (Hhalf s2 s1 c2);
      [intros b; symmetry; apply Hl | apply He | exact H2].
Qed.

Lemma sweep_step_keeps_empty (s s' : store) (k1 k2 : string) :
  is_Some (lookup_item s k1 k2) →
  sweep_step s (k1, k2) = Some s' →
  ∀ a, s !! a = Some ∅ → s' !! a = Some ∅.
Proof.
  intros [it Hit] Hstep a Ha. unfold lookup_item in Hit.
  unfold sweep_step in Hstep.
  destruct (s !! k1) as [coll|] eqn:Hk1; [|discriminate].
  simpl in Hit, Hstep.
  assert (a ≠ k1) as Hne.
  { intros ->. rewrite Hk1 in Ha. injection Ha as ->.
    rewrite lookup_empty in Hit. discriminate. }
  destruct (decide (size (delete k2 coll) = 0%nat)); injection Hstep as <-.
  - rewrite lookup_delete_ne by congruence. exact Ha.
  - rewrite lookup_insert_ne by congruence. exact Ha.
Qed.

Lemma sweep_keeps_empty (l : list (string * string)) : ∀ (s s' : store),
  NoDup l →
  (∀ a b, (a, b) ∈ l → is_Some (lookup_item s a b)) →
  sweep s l = Some s' →
  ∀ a, s !! a = Some ∅ → s' !! a = Some ∅.
Proof.
  induction l as [|[k1 k2] l IH]; intros s s' Hnd Hin Hsw a Ha.
  - injection Hsw as <-. exact Ha.
  - apply NoDup_cons in Hnd as [Hnotin Hnd].
    assert (is_Some (lookup_item s k1 k2)) as Hcell.
    { apply Hin. apply elem_of_cons. left. reflexivity. }
    destruct (sweep_step_spec s k1 k2 Hcell) as (s1 & Hs1 & Hl1 & _).
    change (sweep s ((k1, k2) :: l))
      with (sweep_step s (k1, k2) ≫= λ s1, sweep s1 l) in Hsw.
    rewrite Hs1 in Hsw. simpl in Hsw.
    apply (IH s1 s' Hnd); [|exact Hsw|].
    + intros x y Hxy. rewrite Hl1. case_decide as Heq.
      * exfalso. apply Hnotin. rewrite <- Heq. exact Hxy.
      * apply Hin. apply elem_of_cons. right. exact Hxy.
    + by apply (sweep_step_keeps_empty s s1 k1 k2).
Qed.


Lemma marked_cells_exist (ck : clock) (s : store) (l : list (string * string)) :
  (∀ k, k ∈ l → k ∈ marked_keys ck s) →
  ∀ a b, (a, b) ∈ l → is_Some (lookup_item (mark_store ck s) a b).
Proof.
  intros Hsub a b Hab. apply Hsub, elem_of_marked_keys in Hab as (it & Hit & _).
  rewrite lookup_item_mark_store, Hit. simpl. eauto.
Qed.

(** X6: the sweep does not depend on the order in which the set [marked]
    is iterated: over any enumeration of the marked keys it completes and
    yields the store [cleanup] returns. *)
Theorem sweep_order_irrelevant
    (ck : clock) (s : store) (l : list (string * string)) :
  NoDup l →
  (∀ k, k ∈ l ↔ k ∈ marked_keys ck s) →
  sweep (mark_store ck s) l = cleanup ck s.
Proof.
  intros Hnd Hl.
  assert (∀ a b, (a, b) ∈ l → is_Some (lookup_item (mark_store ck s) a b))
    as Hcells by (apply marked_cells_exist; intros k; apply Hl).
  destruct (sweep_spec l (mark_store ck s) Hnd Hcells) as (s1 & Hs1 & Hl1 & He1).
  rewrite Hs1. unfold cleanup. case_decide as Hsz.
  - apply map_size_empty_iff in Hsz. subst s. f_equal.
    apply store_eq_lookup.
    + intros a b. rewrite Hl1, lookup_item_mark_store.
      unfold lookup_item. rewrite lookup_empty. simpl.
      case_decide; reflexivity.
    + intros a. rewrite lookup_empty. split; [|discriminate].
      intros H%He1. rewrite mark_store_lookup, lookup_empty in H.
      discriminate.
  - assert (∀ a b, (a, b) ∈ elements (marked_keys ck s) →
              is_Some (lookup_item (mark_store ck s) a b)) as Hcells2.
    { apply marked_cells_exist. intros k. apply elem_of_elements. }
    destruct (sweep_spec (elements (marked_keys ck s)) (mark_store ck s)
                (NoDup_elements _) Hcells2) as (s2 & Hs2 & Hl2 & He2).
    rewrite Hs2. f_equal. apply store_eq_lookup.
    + intros a b. rewrite Hl1, Hl2.
      destruct (decide ((a, b) ∈ l)) as [H1|H1];
      destruct (decide ((a, b) ∈ elements (marked_keys ck s))) as [H2|H2];
        try reflexivity.
      * exfalso. apply H2. apply elem_of_elements, Hl, H1.
      * exfalso. apply H1. apply Hl, elem_of_elements, H2.
    + intros a. split; intros H.
      * apply (sweep_keeps_empty _ _ _ (NoDup_elements _) Hcells2 Hs2).
        apply He1, H.
      * apply (sweep_keeps_empty _ _ _ Hnd Hcells Hs1). apply He2, H.
Qed.

Lemma sweep_order_irrelevant_witness :
  sweep (mark_store (λ _ _, 20) two_touched_store)
        (reverse (elements (marked_keys (λ _ _, 20) two_touched_store)))
  = cleanup (λ _ _, 20) two_touched_store.
Proof.
  apply sweep_order_irrelevant.
  - rewrite reverse_Permutation. apply NoDup_elements.
  - intros k. rewrite elem_of_reverse, elem_of_elements. reflexivity.
Defined.




(** ** Refills compose, and cleanup is not observable *)










(** ** Where entries come from *)

Lemma run_cons (s : store) (o : op) (ops : list op) :
  run s (o :: ops) = step s o ≫= λ s1, run s1 ops.
Proof. reflexivity. Qed.

Lemma requested_cons (o : op) (ops : list op) (q r : string) :
  requested ops q r → requested (o :: ops) q r.
Proof.
  intros (now & e & Hin & H). exists now, e. split; [|exact H].
  apply elem_of_cons. right. exact Hin.
Qed.

Lemma run_entries (ops : list op) : ∀ (s0 s : store) (q r : string),
  run s0 ops = Some s →
  is_Some (lookup_item s q r) →
  is_Some (lookup_item s0 q r) ∨ requested ops q r.
Proof.
  induction ops as [|o ops IH]; intros s0 s q r Hrun Hsome.
  - injection Hrun as <-. left. exact Hsome.
  - rewrite run_cons in Hrun.
    destruct (step s0 o) as [s1|] eqn:Hstep; [|discriminate].
    simpl in Hrun.
    destruct (IH s1 s q r Hrun Hsome) as [H1|Hreq];
      [|right; by apply requested_cons].
    destruct o as [now e|ck]; simpl in Hstep.
    + injection Hstep as Hs1.
      destruct (_validate_request e) as [ex|] eqn:Hv.
      * rewrite (handle_event_invalid now e s0 ex Hv) in Hs1.
        simpl in Hs1. subst s1. left. exact H1.
      * destruct (valid_fields e Hv) as (q0 & r0 & p & Hq0 & Hr0 & Hp).
        destruct (decide ((q0, r0) = (q, r))) as [[= -> ->]|Hne].
        -- right. exists now, e. split; [|auto].
           apply elem_of_cons. left. reflexivity.
        -- left. rewrite <- Hs1 in H1.
           rewrite handle_event_frame in H1; [exact H1|].
           rewrite Hq0, Hr0. congruence.
    + destruct (cleanup_spec ck s0) as (s2 & Hs2 & Hl & _).
      assert (s2 = s1) as -> by congruence.
      left. rewrite Hl in H1.
      destruct (lookup_item s0 q r); [eauto | by destruct H1].
Qed.

(** X10: the store only ever holds entries for pairs that were asked
    about: an entry found after a run from the empty store belongs to a
    pair named by some request of the run that passed validation.  Neither
    a rejected request nor a cleanup pass creates an entry. *)
Theorem entries_were_requested
    (ops : list op) (s : store) (q r : string) (it : item) :
  run __init__ ops = Some s →
  lookup_item s q r = Some it →
  requested ops q r.
Proof.
  intros Hrun Hit.
  destruct (run_entries ops __init__ s q r Hrun) as [[x Hx]|Hreq]; [eauto| |].
  - unfold lookup_item, __init__ in Hx. rewrite lookup_empty in Hx.
    discriminate.
  - exact Hreq.
Qed.

Lemma entries_were_requested_witness : requested sample_run "alice" "api".
Proof.
  apply (entries_were_requested sample_run
           (default ∅ (run __init__ sample_run)) "alice" "api"
           (Item 6 9 (Params 1 10 10))); vm_compute; reflexivity.
Defined.

(** * The example API in front of the throttler *)

Lemma api_event_valid (q r : string) :
  _validate_request (plain_event q r) = None ∧
  evaluated_params (plain_event q r) = Some (Params 1 10 10).
Proof. split; reflexivity. Qed.

Lemma route_root_eq (now : Q) (rq : flask_request) (s : store) :
  route_root now rq s =
  (reply_response (fst (handle_event now (api_event rq) s)),
   snd (handle_event now (api_event rq) s)).
Proof.
  unfold route_root, rate_limited, _check_rate_limit, post, api_event,
    api_resource, plain_event.
  destruct (handle_event now _ s) as [[x|[[] d]] s1]; reflexivity.
Qed.


Lemma serve_replay (reqs : list (Q * flask_request)) : ∀ s,
  serve s reqs =
  (map reply_response
     (fst (replay s (map (λ tr, (fst tr, api_event (snd tr))) reqs))),
   snd (replay s (map (λ tr, (fst tr, api_event (snd tr))) reqs))).
Proof.
  induction reqs as [|[now rq] reqs IH]; intros s; [reflexivity|].
  cbn [serve map replay fst snd]. rewrite route_root_eq.
  destruct (handle_event now (api_event rq) s) as [res s1]. cbn [fst snd].
  rewrite IH.
  destruct (replay s1 _) as [rest s2]. reflexivity.
Qed.

(** X12: clients that resolve to one requester id share one bucket: from a
    store without an entry for that id, any [n] requests to the route [/]
    made at one instant by requests whose header or address resolve to it
    are answered by [min n 10] greetings followed by 429 only.  A request
    that sends somebody's address as its Authorization header draws on that
    address's bucket. *)
Theorem api_shared_bucket
    (s : store) (now : Q) (a : string) (rqs : list flask_request) :
  lookup_item s a "api:path:foo" = None →
  Forall (λ rq, requester_of rq = a) rqs →
  fst (serve s (map (λ rq, (now, rq)) rqs)) =
    repeat hello_response (length rqs `min` 10) ++
    repeat render_rate_limit_err (length rqs - 10).
Proof.
  intros Hnone Hall. rewrite serve_replay. cbn [fst].
  assert (map (λ tr : Q * flask_request, (fst tr, api_event (snd tr)))
            (map (λ rq, (now, rq)) rqs) =
          repeat (now, plain_event a api_resource) (length rqs)) as ->.
  { induction Hall as [|rq rqs Hrq _ IH]; [reflexivity|].
    cbn [map length repeat fst snd]. rewrite IH. unfold api_event.
    rewrite Hrq. reflexivity. }
  rewrite (burst_same_instant (plain_event a api_resource) a api_resource
             (Params 1 10 10) eq_refl eq_refl eq_refl eq_refl now
             (length rqs) s 10).
  - rewrite map_app, !map_repeat. reflexivity.
  - simpl. lia.
  - unfold current_item, api_resource. rewrite Hnone. reflexivity.
  - unfold current_item, api_resource. rewrite Hnone. reflexivity.
Qed.

Lemma api_shared_bucket_witness :
  fst (serve __init__ (map (λ rq, (5, rq)) same_requester_requests)) =
    repeat hello_response (length same_requester_requests `min` 10) ++
    repeat render_rate_limit_err (length same_requester_requests - 10).
Proof.
  apply (api_shared_bucket __init__ 5 "10.0.0.1" same_requester_requests).
  - reflexivity.
  - unfold same_requester_requests. simpl.
    repeat (apply List.Forall_cons; [reflexivity|]). apply List.Forall_nil.
Defined.

(** X13: the limit of the example API is per Authorization value, not per
    client: requests that each carry a requester id the store has no entry
    for, all different from one another, are all answered with the
    greeting, however many they are and whenever they are made. *)
Theorem rotating_authorization_unlimited
    (reqs : list (Q * flask_request)) : ∀ (s : store),
  NoDup (map (λ tr, requester_of (snd tr)) reqs) →
  (∀ tr, tr ∈ reqs →
         lookup_item s (requester_of (snd tr)) "api:path:foo" = None) →
  fst (serve s reqs) = repeat hello_response (length reqs).
Proof.
  induction reqs as [|[now rq] reqs IH]; intros s Hnd Hfresh; [reflexivity|].
  cbn [map snd] in Hnd. apply NoDup_cons in Hnd as [Hnotin Hnd].
  cbn [serve]. rewrite route_root_eq.
  assert (lookup_item s (requester_of rq) api_resource = None) as Hnone.
  { apply (Hfresh (now, rq)). apply elem_of_cons. left. reflexivity. }
  destruct (request_same_instant (api_event rq) (requester_of rq) api_resource
              (Params 1 10 10) eq_refl eq_refl eq_refl eq_refl now s 10)
    as (it & _ & Hev & _).
  { simpl. lia. }
  { unfold current_item. rewrite Hnone. reflexivity. }
  { unfold current_item. rewrite Hnone. reflexivity. }
  rewrite Hev. cbn [fst snd]. rewrite decide_False by discriminate.
  specialize (IH (put s (requester_of rq) api_resource it) Hnd).
  destruct (serve (put s (requester_of rq) api_resource it) reqs)
    as [rest s2].
  cbn [fst length repeat] in IH |- *. rewrite IH; [reflexivity|].
  intros tr Htr. rewrite lookup_item_put_ne.
  - apply Hfresh. apply elem_of_cons. right. exact Htr.
  - intros [= Heq]. apply Hnotin. rewrite <- Heq.
    apply (list_elem_of_fmap_2 (λ tr, requester_of (snd tr))). exact Htr.
Qed.

Lemma rotating_authorization_unlimited_witness :
  fst (serve __init__ rotating_requests) =
    repeat hello_response (length rotating_requests).
Proof.
  apply (rotating_authorization_unlimited rotating_requests __init__).
  - apply (bool_decide_unpack _). vm_compute. exact I.
  - intros tr _. reflexivity.
Defined.

(** * Closed forms of the two decisions *)






(** * What a client observes depends on its own requests only *)

Lemma replay_cons (s : store) (now : Q) (e : event) (l : list (Q * event)) :
  replay s ((now, e) :: l) =
  (fst (handle_event now e s) :: fst (replay (snd (handle_event now e s)) l),
   snd (replay (snd (handle_event now e s)) l)).
Proof.
  cbn [replay]. destruct (handle_event now e s) as [res s1]. cbn [fst snd].
  destruct (replay s1 l) as [rest s2]. reflexivity.
Qed.

Lemma is_for_true (q r : string) (tr : Q * event) :
  is_for q r tr = true ↔
  requester_id (snd tr) = Some q ∧ resource_id (snd tr) = Some r.
Proof.
  unfold is_for. rewrite andb_true_iff.
  rewrite !bool_decide_eq_true. reflexivity.
Qed.

Lemma replay_projection (q r : string) (reqs : list (Q * event)) :
  ∀ s1 s2 : store,
  lookup_item s1 q r = lookup_item s2 q r →
  replies_for q r reqs (fst (replay s1 reqs)) =
    fst (replay s2 (filter (λ tr, is_for q r tr = true) reqs)) ∧
  lookup_item (snd (replay s1 reqs)) q r =
    lookup_item (snd (replay s2 (filter (λ tr, is_for q r tr = true) reqs)))
      q r.
Proof.
  induction reqs as [|[now e] reqs IH]; intros s1 s2 Hcell.
  - split; [reflexivity | exact Hcell].
  - rewrite replay_cons. cbn [fst snd]. unfold replies_for.
    cbn [zip zip_with]. rewrite !filter_cons. cbn [fst].
    destruct (decide (is_for q r (now, e) = true)) as [Hfor|Hfor].
    + apply is_for_true in Hfor as [Hq Hr]. cbn [snd] in Hq, Hr.
      destruct (handle_event_local now e s1 s2 q r Hq Hr Hcell)
        as [Hres Hcell'].
      rewrite replay_cons. cbn [fst snd fmap list_fmap].
      destruct (IH (snd (handle_event now e s1)) (snd (handle_event now e s2))
                  Hcell') as [IH1 IH2].
      unfold replies_for in IH1. split; [|exact IH2].
      rewrite Hres. f_equal. exact IH1.
    + assert (lookup_item (snd (handle_event now e s1)) q r =
              lookup_item s2 q r) as Hcell'.
      { rewrite handle_event_frame; [exact Hcell|].
        intros [= Hq Hr]. apply Hfor. apply is_for_true. auto. }
      destruct (IH (snd (handle_event now e s1)) s2 Hcell') as [IH1 IH2].
      unfold replies_for in IH1. split; [exact IH1 | exact IH2].
Qed.

(** X16: what a pair observes depends on its own requests only.  In any
    sequence of requests, the replies to the requests that name a pair, and
    the pair's final entry, are those of the sequence with every other
    request left out - requests for other pairs and rejected requests
    included. *)
Theorem other_requests_invisible
    (q r : string) (reqs : list (Q * event)) (s : store) :
  replies_for q r reqs (fst (replay s reqs)) =
    fst (replay s (filter (λ tr, is_for q r tr = true) reqs)) ∧
  lookup_item (snd (replay s reqs)) q r =
    lookup_item (snd (replay s (filter (λ tr, is_for q r tr = true) reqs)))
      q r.
Proof. by apply replay_projection. Qed.

(** * The first request of a pair *)


